(** * Hello World message renderer (Eric/hello world/app.js)

    A shallow embedding of [displayMessage], [init] and the
    [DOMContentLoaded] registration, over a small model of the part of the
    browser the script talks to: the document tree, the console and the
    document's event listener list. *)

From Stdlib Require Import String Ascii List Arith Bool Lia.
From stdpp Require Import base option list.
Import ListNotations.
Local Open Scope string_scope.
Local Open Scope list_scope.
Set Warnings "-register-all".

(** ** The document tree *)

Module Dom.

(** The node kinds a parsed page contains.  An element carries its tag
    name, its attribute list and its child nodes. *)
Inductive node : Type :=
| Text (data : string)
| Comment (data : string)
| Element (tagName : string) (attributes : list (string * string))
          (childNodes : list node).

(** A reference to a node inside a tree: the child indices from the root. *)
Definition path : Type := list nat.

Definition children (n : node) : list node :=
  match n with
  | Element _ _ ch => ch
  | _ => []
  end.

Fixpoint getAttribute (name : string) (attrs : list (string * string))
  : option string :=
  match attrs with
  | [] => None
  | (k, v) :: rest => if String.eqb k name then Some v else getAttribute name rest
  end.

(** An element's ID is the value of its [id] attribute when that value is
    not the empty string. *)
Definition element_id (attrs : list (string * string)) : option string :=
  match getAttribute "id" attrs with
  | Some v => if String.eqb v "" then None else Some v
  | None => None
  end.

Definition has_id (t : string) (n : node) : bool :=
  match n with
  | Element _ attrs _ =>
      match element_id attrs with
      | Some v => String.eqb v t
      | None => false
      end
  | _ => false
  end.

(** First element in tree order, at or below [n], whose ID is [t]. *)
Fixpoint find_node (t : string) (n : node) : option path :=
  match n with
  | Element _ _ ch =>
      if has_id t n then Some []
      else
        (fix scan (l : list node) : option path :=
           match l with
           | [] => None
           | c :: r =>
               match find_node t c with
               | Some q => Some (0 :: q)
               | None =>
                   match scan r with
                   | Some (i :: q) => Some (S i :: q)
                   | _ => None
                   end
               end
           end) ch
  | _ => None
  end.

(** The same search over a list of sibling trees. *)
Fixpoint find_forest (t : string) (l : list node) : option path :=
  match l with
  | [] => None
  | c :: r =>
      match find_node t c with
      | Some q => Some (0 :: q)
      | None =>
          match find_forest t r with
          | Some (i :: q) => Some (S i :: q)
          | _ => None
          end
      end
  end.

Fixpoint node_at (p : path) (n : node) : option node :=
  match p with
  | [] => Some n
  | i :: q =>
      match children n !! i with
      | Some c => node_at q c
      | None => None
      end
  end.

Definition forest_at (p : path) (l : list node) : option node :=
  match p with
  | [] => None
  | i :: q =>
      match l !! i with
      | Some c => node_at q c
      | None => None
      end
  end.

(** In-place update of the node a path refers to. *)
Fixpoint node_update (p : path) (f : node -> node) (n : node) : node :=
  match p with
  | [] => f n
  | i :: q =>
      match n with
      | Element tag attrs ch => Element tag attrs (alter (node_update q f) i ch)
      | _ => n
      end
  end.

Definition forest_update (p : path) (f : node -> node) (l : list node)
  : list node :=
  match p with
  | [] => l
  | i :: q => alter (node_update q f) i l
  end.

(** The [textContent] getter: a character-data node gives its data, an
    element the concatenation of the data of its Text descendants in tree
    order. *)
Fixpoint textContent (n : node) : string :=
  match n with
  | Text d => d
  | Comment d => d
  | Element _ _ ch =>
      (fix cat (l : list node) : string :=
         match l with
         | [] => ""
         | c :: r =>
             String.append
               (match c with Comment _ => "" | _ => textContent c end)
               (cat r)
         end) ch
  end.

(** The children the [textContent] setter leaves in an element: one Text
    node, or none for the empty string. *)
Definition text_nodes (m : string) : list node :=
  if String.eqb m "" then [] else [Text m].

(** The [textContent] setter. *)
Definition set_textContent (m : string) (n : node) : node :=
  match n with
  | Text _ => Text m
  | Comment _ => Comment m
  | Element tag attrs _ => Element tag attrs (text_nodes m)
  end.

(** [q] extends [p]: the node at [q] is the node at [p] or lies below it. *)
Fixpoint is_prefix (p q : path) : bool :=
  match p, q with
  | [], _ => true
  | i :: p', j :: q' => Nat.eqb i j && is_prefix p' q'
  | _ :: _, [] => false
  end.

(** Neither node lies at or below the other. *)
Definition apart (p q : path) : bool :=
  negb (is_prefix p q) && negb (is_prefix q p).

(** Functions that only replace an element's children. *)
Definition keeps_shell (f : node -> node) : Prop :=
  forall tag attrs ch, exists ch', f (Element tag attrs ch) = Element tag attrs ch'.

End Dom.

(** ** The script's world: document and console *)

Module Js.
Import Dom.

(** The values a call can hand back to its caller. *)
Inductive value : Type :=
| Undefined
| Null
| Boolean (b : bool)
| Str (s : string).

Inductive level : Type := LogLine | ErrorLine.

(** One line written to the console. *)
Record entry : Type := Entry { entry_level : level; entry_text : string }.

(** What the script can observe and change: the children of the document
    node and the lines written to the console so far, oldest first. *)
Record world : Type := World { document : list node; console : list entry }.

(** Computations that read and update the world. *)
Definition JS (A : Type) : Type := world -> A * world.

Definition ret {A} (a : A) : JS A := fun w => (a, w).

Definition bind {A B} (c : JS A) (k : A -> JS B) : JS B :=
  fun w => let (a, w') := c w in k a w'.

Definition exec {A} (c : JS A) (w : world) : world := snd (c w).
Definition result {A} (c : JS A) (w : world) : A := fst (c w).

Declare Scope js_scope.
Delimit Scope js_scope with js.
Notation "x <- c ;; k" := (bind c (fun x => k))
  (at level 100, c at next level, right associativity) : js_scope.
Notation "c ;; k" := (bind c (fun _ => k))
  (at level 100, right associativity) : js_scope.
Local Open Scope js_scope.

(** [document.getElementById(elementId)]: a reference to the first element
    in tree order with that ID, or null. *)
Definition getElementById (elementId : string) : JS (option path) :=
  fun w => (find_forest elementId (document w), w).

(** [element.textContent = message] through a reference. *)
Definition assign_textContent (element : path) (message : string) : JS unit :=
  fun w =>
    (tt, World (forest_update element (set_textContent message) (document w))
               (console w)).

Definition console_write (l : level) (s : string) : JS unit :=
  fun w => (tt, World (document w) (console w ++ [Entry l s])).

Definition console_error : string -> JS unit := console_write ErrorLine.
Definition console_log : string -> JS unit := console_write LogLine.

(** The template literal of the not-found diagnostic. *)
Definition not_found_text (elementId : string) : string :=
  String.append "Element with ID '" (String.append elementId "' not found").

Definition displayMessage (message elementId : string) : JS value :=
  element <- getElementById elementId ;;
  match element with
  | None =>
      console_error (not_found_text elementId) ;;
      ret Undefined
  | Some el =>
      assign_textContent el message ;;
      ret Undefined
  end.

Definition init_text : string :=
  "Hello World application initialized successfully".

Definition init : JS value :=
  displayMessage "Hello World" "message" ;;
  console_log init_text ;;
  ret Undefined.

(** *** Observations on a world *)

(** The sink an identifier names: the element a lookup returns. *)
Definition sink (t : string) (w : world) : option node :=
  match find_forest t (document w) with
  | Some p => forest_at p (document w)
  | None => None
  end.

(** The visible text of the sink an identifier names. *)
Definition sink_text (t : string) (w : world) : option string :=
  match sink t w with
  | Some e => Some (textContent e)
  | None => None
  end.

(** [sub] occurs inside [s]. *)
Definition mentions (s sub : string) : Prop :=
  exists pre post : string,
    s = String.append pre (String.append sub post).

(** Writing a list of messages to the same target, one call after the
    other. *)
Fixpoint displayAll (ms : list string) (t : string) (w : world) : world :=
  match ms with
  | [] => w
  | m :: rest => displayAll rest t (exec (displayMessage m t) w)
  end.

(** *** The spec's description of [init], for comparison *)

(** The effects of [displayMessage('Hello World', 'message')] written out
    by cases, followed by one unconditional diagnostic line. *)
Definition init_described (w : world) : world :=
  let after_display :=
    match find_forest "message" (document w) with
    | Some p =>
        World (forest_update p (set_textContent "Hello World") (document w))
              (console w)
    | None =>
        World (document w)
              (console w ++ [Entry ErrorLine "Element with ID 'message' not found"])
    end in
  World (document after_display)
        (console after_display ++ [Entry LogLine init_text]).

End Js.

(** ** The host page: listener registration and the load signal *)

Module Host.
Import Dom Js.

(** The functions the script hands to the host as callbacks. *)
Inductive callback : Type := InitCallback.

Definition call (cb : callback) : JS value :=
  match cb with
  | InitCallback => init
  end.

Definition callback_eqb (a b : callback) : bool :=
  match a, b with
  | InitCallback, InitCallback => true
  end.

(** Whether the document is still being parsed. *)
Inductive readiness : Type := Loading | Loaded.

Record page : Type := Page {
  page_world : world;
  listeners : list (string * callback);
  readyState : readiness
}.

Definition same_listener (a b : string * callback) : bool :=
  String.eqb (fst a) (fst b) && callback_eqb (snd a) (snd b).

(** [document.addEventListener(type, cb)]: appended unless the same
    listener is already registered. *)
Definition addEventListener (type : string) (cb : callback) (pg : page) : page :=
  if existsb (same_listener (type, cb)) (listeners pg) then pg
  else Page (page_world pg) (listeners pg ++ [(type, cb)]) (readyState pg).

(** Evaluating the script: its two constants are bound and [init] is
    registered for [DOMContentLoaded]. *)
Definition app_js (pg : page) : page :=
  addEventListener "DOMContentLoaded" InitCallback pg.

(** Running the listeners registered for an event type, in order. *)
Fixpoint run_listeners (type : string) (ls : list (string * callback))
         (w : world) : world :=
  match ls with
  | [] => w
  | (ty, cb) :: rest =>
      run_listeners type rest
        (if String.eqb ty type then exec (call cb) w else w)
  end.

Definition dispatch (type : string) (pg : page) : page :=
  Page (run_listeners type (listeners pg) (page_world pg))
       (listeners pg) (readyState pg).

(** What the host can do to a page: finish parsing, which fires
    [DOMContentLoaded], or fire an event of another type. *)
Inductive host_event : Type :=
| ContentLoaded
| OtherEvent (type : string).

(** The host's contract: [DOMContentLoaded] is fired when, and only when,
    the document leaves the loading state. *)
Definition host_fire (e : host_event) (pg : page) : option page :=
  match e with
  | ContentLoaded =>
      match readyState pg with
      | Loading =>
          Some (dispatch "DOMContentLoaded"
                  (Page (page_world pg) (listeners pg) Loaded))
      | Loaded => None
      end
  | OtherEvent type =>
      if String.eqb type "DOMContentLoaded" then None
      else Some (dispatch type pg)
  end.

Fixpoint host_run (es : list host_event) (pg : page) : option page :=
  match es with
  | [] => Some pg
  | e :: rest =>
      match host_fire e pg with
      | Some pg' => host_run rest pg'
      | None => None
      end
  end.

(** A page whose document [d] is being parsed, with a fresh console, in
    which the script has just been evaluated. *)
Definition boot (d : list node) : page :=
  app_js (Page (World d []) [] Loading).

Definition is_init_line (e : entry) : bool :=
  match entry_level e with
  | LogLine => String.eqb (entry_text e) init_text
  | ErrorLine => false
  end.

(** How often [init] has run, read off the console: each run writes its
    confirmation line once. *)
Definition init_runs (pg : page) : nat :=
  length (List.filter is_init_line (console (page_world pg))).

Definition fired (e : host_event) : bool :=
  match e with
  | ContentLoaded => true
  | OtherEvent _ => false
  end.

(** *** The spec's two-state machine, for comparison *)

Inductive lifecycle : Type := Idle | Done.

(** Idle goes to Done on the load signal; nothing leaves Done. *)
Definition lifecycle_next (s : lifecycle) (e : host_event) : lifecycle :=
  match s, e with
  | Idle, ContentLoaded => Done
  | Idle, OtherEvent _ => Idle
  | Done, _ => Done
  end.

(** The lifecycle state a page is in. *)
Definition phase (pg : page) : lifecycle :=
  match init_runs pg with
  | 0 => Idle
  | S _ => Done
  end.

(** What holds of every page the host can reach from [boot d]: the one
    registration stays in place, and the world is untouched until the
    document has left the loading state, after which [init] has run
    once. *)
Definition lifecycle_inv (d : list node) (pg : page) : Prop :=
  listeners pg = [("DOMContentLoaded", InitCallback)] /\
  match readyState pg with
  | Loading => page_world pg = World d []
  | Loaded => init_runs pg = 1
  end.

End Host.

(** ** Sample pages *)

Module Samples.
Import Dom Js.

(** Scenario C of the spec: the sink already holds "Old Text". *)
Definition old_text_page : list node :=
  [Element "html" []
     [Element "body" []
        [Element "div" [("id", "message")] [Text "Old Text"]]]].

(** Scenario A: the sink exists and is empty. *)
Definition empty_sink_page : list node :=
  [Element "html" []
     [Element "body" [] [Element "div" [("id", "message")] []]]].

(** Scenario B: no element has the ID [message]. *)
Definition no_sink_page : list node :=
  [Element "html" []
     [Element "body" [] [Element "div" [("id", "other")] [Text "x"]]]].

(** A page with two sinks side by side. *)
Definition two_sinks_page : list node :=
  [Element "html" []
     [Element "body" []
        [Element "h1" [("id", "title")] [Text "Title"];
         Element "div" [("id", "message")] [Text "Old Text"]]]].

(** A page whose target sink sits inside one sink and around another. *)
Definition nested_page : list node :=
  [Element "html" []
     [Element "body" []
        [Element "div" [("id", "outer")]
           [Text "a";
            Element "p" [("id", "message")]
              [Text "Old "; Element "b" [("id", "inner")] [Text "Text"]];
            Text "b"]]]].

End Samples.

(** ** Reading the text of a list of children *)

Module DomText.
Import Dom.



(** A page on which two elements carry the ID [message]. *)
Definition duplicate_page : list node :=
  [Element "html" []
     [Element "body" []
        [Element "div" [("id", "message")] [Text "first"];
         Element "div" [("id", "message")] [Text "second"]]]].

(** A page with an element whose [id] attribute is empty. *)
Definition empty_id_page : list node :=
  [Element "html" []
     [Element "body" [] [Element "div" [("id", "")] [Text "x"]]]].

End DomText.

(** ** Facts about the document tree *)

Module DomFacts.
Import Dom.

Lemma append_empty_r (s : string) : String.append s "" = s.
Proof. induction s as [|a s IH]; simpl; [reflexivity | now rewrite IH]. Qed.

Lemma append_assoc (a b c : string) :
  String.append (String.append a b) c = String.append a (String.append b c).
Proof. induction a as [|x a IH]; simpl; [reflexivity | now rewrite IH]. Qed.

(** The search below an element is the forest search over its children. *)
Lemma find_node_element t tag attrs ch :
  find_node t (Element tag attrs ch) =
  if has_id t (Element tag attrs ch) then Some [] else find_forest t ch.
Proof.
  cbn [find_node]. destruct (has_id t (Element tag attrs ch)); [reflexivity|].
  induction ch as [|c r IH]; [reflexivity|].
  cbn [find_forest]. destruct (find_node t c); [reflexivity|].
  now rewrite IH.
Qed.

Lemma has_id_shell t tag attrs ch ch' :
  has_id t (Element tag attrs ch) = has_id t (Element tag attrs ch').
Proof. reflexivity. Qed.

Lemma has_id_element_id t tag attrs ch :
  has_id t (Element tag attrs ch) = true -> element_id attrs = Some t.
Proof.
  cbn [has_id]. destruct (element_id attrs) as [v|]; [|discriminate].
  intros H. apply String.eqb_eq in H. now subst.
Qed.

Lemma find_forest_nonempty t l : find_forest t l <> Some [].
Proof.
  destruct l as [|c r]; cbn [find_forest]; [discriminate|].
  destruct (find_node t c); [discriminate|].
  destruct (find_forest t r) as [[|i q]|]; discriminate.
Qed.

(** A successful forest search names the first sibling whose subtree
    holds a match, and the match inside it. *)
Lemma find_forest_Some t (l : list node) i q :
  find_forest t l = Some (i :: q) <->
  exists c, l !! i = Some c /\ find_node t c = Some q /\
            forall j c', j < i -> l !! j = Some c' -> find_node t c' = None.
Proof.
  revert i. induction l as [|c r IH]; intros i.
  - split; [discriminate|]. intros (x & Hx & _). discriminate.
  - cbn [find_forest]. destruct (find_node t c) as [qc|] eqn:Hc.
    + split.
      * intros [= <- <-]. exists c. repeat split; [assumption|]. lia.
      * intros (x & Hx & Hq & Hlt). destruct i as [|i].
        -- cbn in Hx. injection Hx as <-. congruence.
        -- specialize (Hlt 0 c ltac:(lia) eq_refl). congruence.
    + destruct i as [|i].
      * split.
        -- destruct (find_forest t r) as [[|k qk]|]; discriminate.
        -- intros (x & Hx & Hq & _). cbn in Hx. injection Hx as <-. congruence.
      * specialize (IH i). split.
        -- destruct (find_forest t r) as [[|k qk]|] eqn:Hr; try discriminate.
           intros [= -> ->]. destruct IH as [IH _].
           destruct (IH eq_refl) as (x & Hx & Hq & Hlt).
           exists x. repeat split; try assumption.
           intros [|j] c' Hj Hc'.
           ++ cbn in Hc'. injection Hc' as <-. assumption.
           ++ apply (Hlt j); [lia | assumption].
        -- intros (x & Hx & Hq & Hlt). destruct IH as [_ IH].
           rewrite IH; [reflexivity|].
           exists x. repeat split; try assumption.
           intros j c' Hj Hc'. apply (Hlt (S j)); [lia | assumption].
Qed.

(** A failed forest search: no sibling's subtree holds a match. *)
Lemma find_forest_None t (l : list node) :
  find_forest t l = None <->
  forall j c, l !! j = Some c -> find_node t c = None.
Proof.
  induction l as [|c r IH].
  - split; [|reflexivity]. intros _ j x Hx. discriminate.
  - cbn [find_forest]. destruct (find_node t c) as [qc|] eqn:Hc.
    + split; [discriminate|]. intros H. specialize (H 0 c eq_refl). congruence.
    + split.
      * intros H [|j] x Hx.
        -- cbn in Hx. injection Hx as <-. assumption.
        -- destruct (find_forest t r) as [[|k qk]|] eqn:Hr.
           ++ exfalso. exact (find_forest_nonempty t r Hr).
           ++ discriminate.
           ++ destruct IH as [IH _]. exact (IH eq_refl j x Hx).
      * intros H. destruct IH as [_ IH]. rewrite IH; [reflexivity|].
        intros j x Hx. apply (H (S j) x Hx).
Qed.

(** A successful search ends at an element whose ID is the one asked for. *)
Lemma find_node_sound t q : forall n,
  find_node t n = Some q ->
  exists tag attrs ch,
    node_at q n = Some (Element tag attrs ch) /\ element_id attrs = Some t.
Proof.
  induction q as [|i q IH]; intros n Hn.
  - destruct n as [d|d|tag attrs ch]; try discriminate.
    rewrite find_node_element in Hn.
    destruct (has_id t (Element tag attrs ch)) eqn:Hid.
    + exists tag, attrs, ch. split; [reflexivity|].
      eapply has_id_element_id; eassumption.
    + exfalso. exact (find_forest_nonempty t ch Hn).
  - destruct n as [d|d|tag attrs ch]; try discriminate.
    rewrite find_node_element in Hn.
    destruct (has_id t (Element tag attrs ch)); [discriminate|].
    apply find_forest_Some in Hn. destruct Hn as (c & Hc & Hq & _).
    cbn [node_at children]. rewrite Hc. now apply IH.
Qed.

Lemma find_forest_sound t p (l : list node) :
  find_forest t l = Some p ->
  exists tag attrs ch,
    forest_at p l = Some (Element tag attrs ch) /\ element_id attrs = Some t.
Proof.
  destruct p as [|i q]; intros H.
  - exfalso. exact (find_forest_nonempty t l H).
  - apply find_forest_Some in H. destruct H as (c & Hc & Hq & _).
    cbn [forest_at]. rewrite Hc. now apply find_node_sound.
Qed.

(** Reading back the node a path refers to after updating it. *)
Lemma node_at_update_same f q : forall n e,
  node_at q n = Some e -> node_at q (node_update q f n) = Some (f e).
Proof.
  induction q as [|i q IH]; intros n e Hn.
  - cbn in *. congruence.
  - destruct n as [d|d|tag attrs ch]; try discriminate.
    cbn [node_at children node_update] in *.
    rewrite list_lookup_alter_eq.
    destruct (ch !! i) as [c|]; [|discriminate].
    cbn. now apply IH.
Qed.

Lemma forest_at_update_same f p (l : list node) e :
  forest_at p l = Some e -> forest_at p (forest_update p f l) = Some (f e).
Proof.
  destruct p as [|i q]; [discriminate|].
  cbn [forest_at forest_update]. rewrite list_lookup_alter_eq.
  destruct (l !! i) as [c|]; [|discriminate].
  cbn. apply node_at_update_same.
Qed.

Lemma set_textContent_keeps_shell m : keeps_shell (set_textContent m).
Proof. intros tag attrs ch. now exists (text_nodes m). Qed.

(** The element a search found is still what the search finds after its
    children were replaced. *)
Lemma find_node_update_same t f (Hf : keeps_shell f) q : forall n,
  find_node t n = Some q -> find_node t (node_update q f n) = Some q.
Proof.
  induction q as [|i q IH]; intros n Hn.
  - destruct n as [d|d|tag attrs ch]; try discriminate.
    rewrite find_node_element in Hn. cbn [node_update].
    destruct (Hf tag attrs ch) as [ch' ->]. rewrite find_node_element.
    rewrite (has_id_shell t tag attrs ch' ch).
    destruct (has_id t (Element tag attrs ch)); [reflexivity|].
    exfalso. exact (find_forest_nonempty t ch Hn).
  - destruct n as [d|d|tag attrs ch]; try discriminate.
    rewrite find_node_element in Hn. cbn [node_update].
    rewrite find_node_element.
    rewrite (has_id_shell t tag attrs _ ch).
    destruct (has_id t (Element tag attrs ch)); [discriminate|].
    apply find_forest_Some in Hn. destruct Hn as (c & Hc & Hq & Hlt).
    apply find_forest_Some. exists (node_update q f c). repeat split.
    + rewrite list_lookup_alter_eq, Hc. reflexivity.
    + now apply IH.
    + intros j c' Hj Hc'. rewrite list_lookup_alter_ne in Hc' by lia.
      now apply (Hlt j).
Qed.

Lemma find_forest_update_same t f (Hf : keeps_shell f) p (l : list node) :
  find_forest t l = Some p -> find_forest t (forest_update p f l) = Some p.
Proof.
  destruct p as [|i q]; intros H.
  - exfalso. exact (find_forest_nonempty t l H).
  - apply find_forest_Some in H. destruct H as (c & Hc & Hq & Hlt).
    cbn [forest_update]. apply find_forest_Some.
    exists (node_update q f c). repeat split.
    + rewrite list_lookup_alter_eq, Hc. reflexivity.
    + now apply find_node_update_same.
    + intros j c' Hj Hc'. rewrite list_lookup_alter_ne in Hc' by lia.
      now apply (Hlt j).
Qed.

Lemma textContent_text_nodes tag attrs m :
  textContent (Element tag attrs (text_nodes m)) = m.
Proof.
  unfold text_nodes. destruct (String.eqb m "") eqn:Hm.
  - apply String.eqb_eq in Hm. now subst.
  - cbn. apply append_empty_r.
Qed.

(** Two updates through the same reference compose. *)
Lemma node_update_twice f g q : forall n,
  node_update q g (node_update q f n) = node_update q (fun x => g (f x)) n.
Proof.
  induction q as [|i q IH]; intros n; [reflexivity|].
  destruct n as [d|d|tag attrs ch]; try reflexivity.
  cbn [node_update]. f_equal. rewrite list_alter_alter_eq.
  apply list_alter_ext; [|reflexivity]. intros x _. cbn. apply IH.
Qed.

Lemma forest_update_twice f g p (l : list node) :
  forest_update p g (forest_update p f l) =
  forest_update p (fun x => g (f x)) l.
Proof.
  destruct p as [|i q]; [reflexivity|].
  cbn [forest_update]. rewrite list_alter_alter_eq.
  apply list_alter_ext; [|reflexivity]. intros x _. cbn.
  apply node_update_twice.
Qed.

Lemma node_update_ext f g (Hfg : forall n, f n = g n) q : forall n,
  node_update q f n = node_update q g n.
Proof.
  induction q as [|i q IH]; intros n; [apply Hfg|].
  destruct n as [d|d|tag attrs ch]; try reflexivity.
  cbn [node_update]. f_equal.
  apply list_alter_ext; [|reflexivity]. intros x _. apply IH.
Qed.

Lemma forest_update_ext f g (Hfg : forall n, f n = g n) p (l : list node) :
  forest_update p f l = forest_update p g l.
Proof.
  destruct p as [|i q]; [reflexivity|].
  cbn [forest_update]. apply list_alter_ext; [|reflexivity].
  intros x _. now apply node_update_ext.
Qed.

Lemma set_textContent_twice m m2 n :
  set_textContent m2 (set_textContent m n) = set_textContent m2 n.
Proof. destruct n; reflexivity. Qed.


Lemma apart_cons i p j q :
  apart (i :: p) (j :: q) = true -> i <> j \/ (i = j /\ apart p q = true).
Proof.
  unfold apart. cbn [is_prefix].
  destruct (Nat.eqb_spec i j) as [->|Hne]; [|now left].
  rewrite Nat.eqb_refl. cbn. intros H. right. now split.
Qed.

Lemma apart_nil_l q : apart [] q = false.
Proof. reflexivity. Qed.

Lemma apart_nil_r p : apart p [] = false.
Proof. unfold apart. cbn. now rewrite andb_false_r. Qed.

(** Nodes away from the updated one are read back unchanged. *)
Lemma node_at_update_apart f p : forall q n,
  apart p q = true -> node_at q (node_update p f n) = node_at q n.
Proof.
  induction p as [|i p IH]; intros q n Hpq.
  - now rewrite apart_nil_l in Hpq.
  - destruct q as [|j q]; [now rewrite apart_nil_r in Hpq|].
    destruct n as [d|d|tag attrs ch]; try reflexivity.
    cbn [node_update node_at children].
    destruct (apart_cons _ _ _ _ Hpq) as [Hne|[-> Hap]].
    + now rewrite list_lookup_alter_ne.
    + rewrite list_lookup_alter_eq. destruct (ch !! j) as [c|]; [|reflexivity].
      cbn. now apply IH.
Qed.

Lemma forest_at_update_apart f p q (l : list node) :
  apart p q = true -> forest_at q (forest_update p f l) = forest_at q l.
Proof.
  destruct p as [|i p]; [reflexivity|].
  destruct q as [|j q]; [reflexivity|]. intros Hpq.
  cbn [forest_at forest_update].
  destruct (apart_cons _ _ _ _ Hpq) as [Hne|[-> Hap]].
  - now rewrite list_lookup_alter_ne.
  - rewrite list_lookup_alter_eq. destruct (l !! j) as [c|]; [|reflexivity].
    cbn. now apply node_at_update_apart.
Qed.

Lemma find_forest_text_nodes t m : find_forest t (text_nodes m) = None.
Proof. unfold text_nodes. now destruct (String.eqb m ""). Qed.

(** Setting the text of a node never makes a failed search succeed. *)
Lemma find_node_set_textContent_None t m n :
  find_node t n = None -> find_node t (set_textContent m n) = None.
Proof.
  destruct n as [d|d|tag attrs ch]; try reflexivity.
  cbn [set_textContent]. rewrite !find_node_element.
  rewrite (has_id_shell t tag attrs (text_nodes m) ch).
  destruct (has_id t (Element tag attrs ch)); [discriminate|].
  intros _. apply find_forest_text_nodes.
Qed.

Lemma find_node_update_None t m p : forall n,
  find_node t n = None ->
  find_node t (node_update p (set_textContent m) n) = None.
Proof.
  induction p as [|i p IH]; intros n Hn.
  - now apply find_node_set_textContent_None.
  - destruct n as [d|d|tag attrs ch]; try reflexivity.
    cbn [node_update]. rewrite find_node_element in *.
    rewrite (has_id_shell t tag attrs _ ch).
    destruct (has_id t (Element tag attrs ch)); [discriminate|].
    rewrite find_forest_None in *. intros j c Hc.
    destruct (Nat.eq_dec i j) as [->|Hne].
    + rewrite list_lookup_alter_eq in Hc.
      destruct (ch !! j) as [c0|] eqn:Hc0; [|discriminate].
      cbn in Hc. injection Hc as <-. apply IH. now apply (Hn j).
    + rewrite list_lookup_alter_ne in Hc by assumption. now apply (Hn j).
Qed.

(** An element away from the written one is still what a search for its
    ID finds. *)
Lemma find_node_update_apart t2 m p : forall q n,
  apart p q = true -> find_node t2 n = Some q ->
  find_node t2 (node_update p (set_textContent m) n) = Some q.
Proof.
  induction p as [|i p IH]; intros q n Hpq Hn.
  - now rewrite apart_nil_l in Hpq.
  - destruct q as [|j q]; [now rewrite apart_nil_r in Hpq|].
    destruct n as [d|d|tag attrs ch]; try discriminate.
    cbn [node_update]. rewrite find_node_element in *.
    rewrite (has_id_shell t2 tag attrs _ ch).
    destruct (has_id t2 (Element tag attrs ch)); [discriminate|].
    apply find_forest_Some in Hn. destruct Hn as (c & Hc & Hq & Hlt).
    apply find_forest_Some.
    destruct (apart_cons _ _ _ _ Hpq) as [Hne|[-> Hap]].
    + exists c. repeat split.
      * now rewrite list_lookup_alter_ne.
      * assumption.
      * intros k c' Hk Hc'. destruct (Nat.eq_dec i k) as [->|Hik].
        -- rewrite list_lookup_alter_eq in Hc'.
           destruct (ch !! k) as [c0|] eqn:Hc0; [|discriminate].
           cbn in Hc'. injection Hc' as <-.
           apply find_node_update_None. now apply (Hlt k).
        -- rewrite list_lookup_alter_ne in Hc' by assumption.
           now apply (Hlt k).
    + exists (node_update p (set_textContent m) c). repeat split.
      * rewrite list_lookup_alter_eq, Hc. reflexivity.
      * now apply IH.
      * intros k c' Hk Hc'. rewrite list_lookup_alter_ne in Hc' by lia.
        now apply (Hlt k).
Qed.

Lemma find_forest_update_apart t2 m p q (l : list node) :
  apart p q = true -> find_forest t2 l = Some q ->
  find_forest t2 (forest_update p (set_textContent m) l) = Some q.
Proof.
  destruct p as [|i p]; [now rewrite apart_nil_l|].
  destruct q as [|j q]; [now rewrite apart_nil_r|]. intros Hpq Hl.
  cbn [forest_update].
  apply find_forest_Some in Hl. destruct Hl as (c & Hc & Hq & Hlt).
  apply find_forest_Some.
  destruct (apart_cons _ _ _ _ Hpq) as [Hne|[-> Hap]].
  - exists c. repeat split.
    + now rewrite list_lookup_alter_ne.
    + assumption.
    + intros k c' Hk Hc'. destruct (Nat.eq_dec i k) as [->|Hik].
      * rewrite list_lookup_alter_eq in Hc'.
        destruct (l !! k) as [c0|] eqn:Hc0; [|discriminate].
        cbn in Hc'. injection Hc' as <-.
        apply find_node_update_None. now apply (Hlt k).
      * rewrite list_lookup_alter_ne in Hc' by assumption.
        now apply (Hlt k).
  - exists (node_update p (set_textContent m) c). repeat split.
    + rewrite list_lookup_alter_eq, Hc. reflexivity.
    + now apply find_node_update_apart.
    + intros k c' Hk Hc'. rewrite list_lookup_alter_ne in Hc' by lia.
      now apply (Hlt k).
Qed.

End DomFacts.

(** ** Facts about [displayMessage] and [init] *)

Module JsFacts.
Import Dom Js DomFacts.

Lemma displayMessage_found m t w p :
  find_forest t (document w) = Some p ->
  displayMessage m t w =
  (Undefined,
   World (forest_update p (set_textContent m) (document w)) (console w)).
Proof.
  intros H. unfold displayMessage, bind, getElementById. now rewrite H.
Qed.

Lemma displayMessage_absent m t w :
  find_forest t (document w) = None ->
  displayMessage m t w =
  (Undefined,
   World (document w) (console w ++ [Entry ErrorLine (not_found_text t)])).
Proof.
  intros H. unfold displayMessage, bind, getElementById. now rewrite H.
Qed.

Lemma sink_None t w : sink t w = None <-> find_forest t (document w) = None.
Proof.
  unfold sink. destruct (find_forest t (document w)) as [p|] eqn:Hp.
  - destruct (find_forest_sound _ _ _ Hp) as (tag & attrs & ch & Hat & _).
    rewrite Hat. split; discriminate.
  - split; reflexivity.
Qed.

Lemma sink_Some t w e :
  sink t w = Some e ->
  exists p tag attrs ch,
    find_forest t (document w) = Some p /\
    forest_at p (document w) = Some e /\ e = Element tag attrs ch.
Proof.
  unfold sink. destruct (find_forest t (document w)) as [p|] eqn:Hp;
    [|discriminate].
  intros He. destruct (find_forest_sound _ _ _ Hp) as (tag & attrs & ch & Hat & _).
  exists p, tag, attrs, ch. repeat split; congruence.
Qed.

(** After a write the lookup returns the same element, whose children are
    now the text nodes of the message. *)
Lemma sink_after_write m t w tag attrs old :
  sink t w = Some (Element tag attrs old) ->
  find_forest t (document (exec (displayMessage m t) w)) =
    find_forest t (document w) /\
  sink t (exec (displayMessage m t) w) = Some (Element tag attrs (text_nodes m)).
Proof.
  intros Hs. destruct (sink_Some _ _ _ Hs) as (p & _ & _ & _ & Hp & Hat & _).
  unfold exec. rewrite (displayMessage_found m t w p Hp). cbn [snd document].
  pose proof (find_forest_update_same t _ (set_textContent_keeps_shell m) p _ Hp)
    as Hp'.
  split; [congruence|].
  unfold sink. cbn [document]. rewrite Hp'.
  now rewrite (forest_at_update_same _ _ _ _ Hat).
Qed.

Lemma sink_text_after_write m t w e :
  sink t w = Some e -> sink_text t (exec (displayMessage m t) w) = Some m.
Proof.
  intros Hs. destruct (sink_Some _ _ _ Hs) as (p & tag & attrs & ch & _ & _ & ->).
  unfold sink_text. destruct (sink_after_write m t w _ _ _ Hs) as [_ ->].
  now rewrite textContent_text_nodes.
Qed.

Lemma mentions_not_found_id t : mentions (not_found_text t) t.
Proof. now exists "Element with ID '", "' not found". Qed.

Lemma mentions_not_found t : mentions (not_found_text t) "not found".
Proof.
  exists (String.append "Element with ID '" (String.append t "' ")), "".
  unfold not_found_text. now rewrite !append_assoc.
Qed.

Lemma exec_init w :
  exec init w =
  exec (console_log init_text) (exec (displayMessage "Hello World" "message") w).
Proof.
  unfold exec, init, bind.
  destruct (displayMessage "Hello World" "message" w) as [v w']. reflexivity.
Qed.

Lemma sink_console_write t l s w :
  sink t (exec (console_write l s) w) = sink t w.
Proof. reflexivity. Qed.

(** A second write through the same lookup overwrites the first. *)
Lemma displayMessage_overwrite m m2 t w e :
  sink t w = Some e ->
  exec (displayMessage m2 t) (exec (displayMessage m t) w) =
  exec (displayMessage m2 t) w.
Proof.
  intros Hs. destruct (sink_Some _ _ _ Hs) as (p & _ & _ & _ & Hp & _ & _).
  pose proof (find_forest_update_same t _ (set_textContent_keeps_shell m) p _ Hp)
    as Hp'.
  unfold exec. rewrite (displayMessage_found m t w p Hp). cbn [snd].
  rewrite (displayMessage_found m2 t
             (World (forest_update p (set_textContent m) (document w)) (console w))
             p Hp').
  rewrite (displayMessage_found m2 t w p Hp). cbn [snd document console].
  f_equal. rewrite forest_update_twice.
  apply forest_update_ext. intros n. apply set_textContent_twice.
Qed.

Lemma displayAll_last t last : forall ms w e,
  sink t w = Some e ->
  sink_text t (displayAll (ms ++ [last]) t w) = Some last.
Proof.
  induction ms as [|m ms IH]; intros w e Hs.
  - cbn. eapply sink_text_after_write; eassumption.
  - cbn [displayAll app].
    destruct (sink_Some _ _ _ Hs) as (p & tag & attrs & ch & _ & _ & ->).
    destruct (sink_after_write m t w _ _ _ Hs) as [_ Hs'].
    eapply IH; eassumption.
Qed.

End JsFacts.

(** ** Facts about the host page *)

Module HostFacts.
Import Dom Js Host DomFacts JsFacts.

Lemma init_writes_confirmation w :
  exists errs,
    console (exec init w) = console w ++ errs ++ [Entry LogLine init_text] /\
    Forall (fun e => entry_level e = ErrorLine) errs.
Proof.
  rewrite exec_init. unfold exec.
  destruct (find_forest "message" (document w)) as [p|] eqn:Hp.
  - rewrite (displayMessage_found _ _ _ _ Hp). exists []. split; [reflexivity|].
    constructor.
  - rewrite (displayMessage_absent _ _ _ Hp).
    exists [Entry ErrorLine (not_found_text "message")]. split.
    + cbn. now rewrite <- app_assoc.
    + repeat constructor.
Qed.

Lemma filter_init_line_errors errs :
  Forall (fun e => entry_level e = ErrorLine) errs ->
  List.filter is_init_line errs = [].
Proof.
  induction 1 as [|e errs He _ IH]; [reflexivity|].
  cbn [List.filter]. unfold is_init_line at 1. now rewrite He.
Qed.

(** Each run of [init] adds one confirmation line to the console. *)
Lemma init_runs_exec_init w ls r :
  init_runs (Page (exec init w) ls r) = S (init_runs (Page w ls r)).
Proof.
  unfold init_runs. cbn [page_world].
  destruct (init_writes_confirmation w) as (errs & -> & Herrs).
  rewrite !List.filter_app, (filter_init_line_errors errs Herrs).
  rewrite !length_app. cbn. lia.
Qed.

Lemma run_registered_on_signal w :
  run_listeners "DOMContentLoaded" [("DOMContentLoaded", InitCallback)] w =
  exec init w.
Proof. reflexivity. Qed.

Lemma run_registered_on_other type w :
  String.eqb type "DOMContentLoaded" = false ->
  run_listeners type [("DOMContentLoaded", InitCallback)] w = w.
Proof.
  intros H. cbn [run_listeners]. rewrite String.eqb_sym, H. reflexivity.
Qed.

Lemma lifecycle_inv_boot d : lifecycle_inv d (boot d).
Proof. split; reflexivity. Qed.

Lemma lifecycle_inv_fire d e pg pg' :
  lifecycle_inv d pg -> host_fire e pg = Some pg' ->
  lifecycle_inv d pg' /\
  readyState pg' = (if fired e then Loaded else readyState pg).
Proof.
  intros [Hl Hw] He. destruct pg as [w ls r]. cbn in Hl, Hw. subst ls.
  destruct e as [|type]; cbn [host_fire readyState fired] in *.
  - destruct r; [|discriminate]. injection He as <-.
    unfold dispatch. cbn [listeners page_world readyState].
    rewrite run_registered_on_signal. repeat split.
    cbn [readyState]. rewrite init_runs_exec_init. now subst w.
  - destruct (String.eqb type "DOMContentLoaded") eqn:Hty; [discriminate|].
    injection He as <-. unfold dispatch. cbn [listeners page_world readyState].
    rewrite (run_registered_on_other _ _ Hty). repeat split. exact Hw.
Qed.

Lemma lifecycle_inv_run d es : forall pg pg',
  lifecycle_inv d pg -> host_run es pg = Some pg' ->
  lifecycle_inv d pg' /\
  readyState pg' = (if existsb fired es then Loaded else readyState pg).
Proof.
  induction es as [|e es IH]; intros pg pg' Hinv Hrun.
  - cbn in *. injection Hrun as <-. now split.
  - cbn [host_run existsb] in *.
    destruct (host_fire e pg) as [pg1|] eqn:He; [|discriminate].
    destruct (lifecycle_inv_fire d e pg pg1 Hinv He) as [Hinv1 Hr1].
    destruct (IH pg1 pg' Hinv1 Hrun) as [Hinv' Hr'].
    split; [assumption|]. rewrite Hr', Hr1.
    destruct (fired e); cbn; [now destruct (existsb fired es) | reflexivity].
Qed.

Lemma lifecycle_inv_runs d pg :
  lifecycle_inv d pg ->
  init_runs pg = match readyState pg with Loading => 0 | Loaded => 1 end.
Proof.
  intros [_ Hw]. destruct (readyState pg); [|assumption].
  unfold init_runs. now rewrite Hw.
Qed.

End HostFacts.

(** ** The properties of the renderer *)

Import Dom Js Host Samples DomFacts JsFacts HostFacts.

(** C1. When a sink with identifier [t] exists, [displayMessage m t] leaves
    that same sink holding exactly the text [m]: its children are replaced
    by the text nodes of [m], so nothing of its former content or child
    structure remains, and its visible text reads [m]. *)
Theorem displayMessage_replaces_text (m t : string) (w : world) (e : node) :
  sink t w = Some e ->
  exists tag attrs old,
    e = Element tag attrs old /\
    find_forest t (document (exec (displayMessage m t) w)) =
      find_forest t (document w) /\
    sink t (exec (displayMessage m t) w) = Some (Element tag attrs (text_nodes m)) /\
    sink_text t (exec (displayMessage m t) w) = Some m.
Proof.
  intros Hs. destruct (sink_Some _ _ _ Hs) as (p & tag & attrs & ch & _ & _ & He).
  exists tag, attrs, ch. subst e.
  destruct (sink_after_write m t w _ _ _ Hs) as [Hf Hs'].
  repeat split; try assumption.
  eapply sink_text_after_write; eassumption.
Qed.

Lemma displayMessage_replaces_text_witness :
  exists tag attrs old,
    Element "div" [("id", "message")] [Text "Old Text"] = Element tag attrs old /\
    find_forest "message"
      (document (exec (displayMessage "Hi" "message") (World old_text_page []))) =
      find_forest "message" (document (World old_text_page [])) /\
    sink "message" (exec (displayMessage "Hi" "message") (World old_text_page [])) =
      Some (Element tag attrs (text_nodes "Hi")) /\
    sink_text "message"
      (exec (displayMessage "Hi" "message") (World old_text_page [])) = Some "Hi".
Proof.
  apply (displayMessage_replaces_text "Hi" "message" (World old_text_page [])).
  reflexivity.
Defined.

(** C2. When no sink has the identifier [t'], [displayMessage m t'] leaves
    the document, and so every sink, as it was and writes exactly one
    console line: an error that contains [t'] and says "not found". *)
Theorem displayMessage_missing_sink (m t' : string) (w : world) :
  sink t' w = None ->
  document (exec (displayMessage m t') w) = document w /\
  (forall t, sink t (exec (displayMessage m t') w) = sink t w) /\
  console (exec (displayMessage m t') w) =
    console w ++ [Entry ErrorLine (not_found_text t')] /\
  mentions (not_found_text t') t' /\
  mentions (not_found_text t') "not found".
Proof.
  intros Hs. apply sink_None in Hs.
  unfold exec. rewrite (displayMessage_absent m t' w Hs). cbn [snd document console].
  repeat split.
  - apply mentions_not_found_id.
  - apply mentions_not_found.
Qed.

Lemma displayMessage_missing_sink_witness :
  document (exec (displayMessage "Hi" "message") (World no_sink_page [])) =
    no_sink_page /\
  console (exec (displayMessage "Hi" "message") (World no_sink_page [])) =
    [Entry ErrorLine "Element with ID 'message' not found"].
Proof.
  pose proof (displayMessage_missing_sink "Hi" "message" (World no_sink_page [])
                eq_refl) as (Hd & _ & Hc & _).
  split; [exact Hd | exact Hc].
Defined.

(** C3. In every world, running [init] has the effects of
    [displayMessage 'Hello World' 'message'] followed by one console line
    that is written whether or not the sink was found: the same document
    and the same console lines in the same order. *)
Theorem init_is_display_then_log (w : world) :
  exec init w = init_described w /\
  exec init w =
    exec (console_log init_text) (exec (displayMessage "Hello World" "message") w) /\
  document (exec init w) =
    document (exec (displayMessage "Hello World" "message") w) /\
  console (exec init w) =
    console (exec (displayMessage "Hello World" "message") w) ++
    [Entry LogLine init_text].
Proof.
  rewrite exec_init. unfold init_described, exec.
  destruct (find_forest "message" (document w)) as [p|] eqn:Hp.
  - rewrite (displayMessage_found _ _ _ _ Hp). cbn. auto.
  - rewrite (displayMessage_absent _ _ _ Hp). cbn. auto.
Qed.

(** C4. When no sink has the identifier [message], [init] leaves the
    document as it was, and the console gains the not-found error, which
    mentions [message], followed by the "initialized successfully" line. *)
Theorem init_missing_sink (w : world) :
  sink "message" w = None ->
  document (exec init w) = document w /\
  (forall t, sink t (exec init w) = sink t w) /\
  console (exec init w) =
    console w ++ [Entry ErrorLine "Element with ID 'message' not found";
                  Entry LogLine "Hello World application initialized successfully"] /\
  mentions "Element with ID 'message' not found" "message" /\
  mentions "Hello World application initialized successfully"
           "initialized successfully".
Proof.
  intros Hs. apply sink_None in Hs. rewrite exec_init.
  unfold exec. rewrite (displayMessage_absent _ _ _ Hs).
  cbn [snd console_log console_write document console].
  repeat split.
  - now rewrite <- app_assoc.
  - apply (mentions_not_found_id "message").
  - now exists "Hello World application ", "".
Qed.

Lemma init_missing_sink_witness :
  document (exec init (World no_sink_page [])) = no_sink_page /\
  console (exec init (World no_sink_page [])) =
    [Entry ErrorLine "Element with ID 'message' not found";
     Entry LogLine "Hello World application initialized successfully"].
Proof.
  pose proof (init_missing_sink (World no_sink_page []) eq_refl)
    as (Hd & _ & Hc & _).
  split; [exact Hd | exact Hc].
Defined.

(** C5. [displayMessage] returns [undefined] in every world, so the value
    it hands back is the same with and without the sink; what tells the
    two apart is the console, which gains the error line exactly when the
    sink is missing. *)
Theorem displayMessage_returns_undefined (m t : string) (w w2 : world) :
  result (displayMessage m t) w = Undefined /\
  result (displayMessage m t) w = result (displayMessage m t) w2 /\
  console (exec (displayMessage m t) w) =
    match sink t w with
    | Some _ => console w
    | None => console w ++ [Entry ErrorLine (not_found_text t)]
    end.
Proof.
  assert (Hu : forall v, result (displayMessage m t) v = Undefined).
  { intros v. unfold result.
    destruct (find_forest t (document v)) as [p|] eqn:Hp.
    - now rewrite (displayMessage_found _ _ _ _ Hp).
    - now rewrite (displayMessage_absent _ _ _ Hp). }
  repeat split; [apply Hu | now rewrite !Hu |].
  destruct (sink t w) as [e|] eqn:Hs.
  - destruct (sink_Some _ _ _ Hs) as (p & _ & _ & _ & Hp & _ & _).
    unfold exec. now rewrite (displayMessage_found _ _ _ _ Hp).
  - apply sink_None in Hs.
    unfold exec. now rewrite (displayMessage_absent _ _ _ Hs).
Qed.

Lemma displayMessage_channels_example :
  result (displayMessage "Hi" "message") (World old_text_page []) =
    result (displayMessage "Hi" "message") (World no_sink_page []) /\
  console (exec (displayMessage "Hi" "message") (World old_text_page [])) = [] /\
  console (exec (displayMessage "Hi" "message") (World no_sink_page [])) =
    [Entry ErrorLine "Element with ID 'message' not found"].
Proof. repeat split. Qed.

(** C6. Writes to an existing sink are last-write-wins: writing [m] and
    then [m2] to the sink [t] leaves its text equal to [m2], in fact
    leaves the very world that writing [m2] alone gives, and after any
    sequence of writes the sink's text is the last message written. *)
Theorem displayMessage_last_write_wins (t : string) (w : world) (e : node) :
  sink t w = Some e ->
  (forall m m2,
     sink_text t (exec (displayMessage m2 t) (exec (displayMessage m t) w)) =
       Some m2 /\
     exec (displayMessage m2 t) (exec (displayMessage m t) w) =
       exec (displayMessage m2 t) w) /\
  (forall ms last, sink_text t (displayAll (ms ++ [last]) t w) = Some last).
Proof.
  intros Hs. split.
  - intros m m2. rewrite (displayMessage_overwrite m m2 t w e Hs).
    split; [|reflexivity]. eapply sink_text_after_write; eassumption.
  - intros ms last. eapply displayAll_last; eassumption.
Qed.

Lemma displayMessage_last_write_wins_witness :
  sink_text "message"
    (displayAll (["one"; "two"] ++ ["three"]) "message" (World old_text_page [])) =
  Some "three".
Proof.
  pose proof (displayMessage_last_write_wins "message" (World old_text_page []) _
                eq_refl) as [_ H].
  exact (H ["one"; "two"] "three").
Defined.

(** C7. Whatever an existing sink [message] held before, after [init] its
    only child is the text node "Hello World" and its text reads exactly
    "Hello World". *)
Theorem init_shows_hello_world (w : world) (e : node) :
  sink "message" w = Some e ->
  sink_text "message" (exec init w) = Some "Hello World" /\
  exists tag attrs old,
    e = Element tag attrs old /\
    sink "message" (exec init w) = Some (Element tag attrs [Text "Hello World"]).
Proof.
  intros Hs. rewrite exec_init. unfold sink_text, console_log.
  rewrite sink_console_write.
  destruct (sink_Some _ _ _ Hs) as (p & tag & attrs & ch & _ & _ & ->).
  destruct (sink_after_write "Hello World" "message" w _ _ _ Hs) as [_ Hs'].
  rewrite Hs'. split; [reflexivity|]. now exists tag, attrs, ch.
Qed.

Lemma init_shows_hello_world_witness :
  sink_text "message" (exec init (World old_text_page [])) = Some "Hello World".
Proof.
  exact (proj1 (init_shows_hello_world (World old_text_page []) _ eq_refl)).
Defined.

Lemma init_empty_sink_example :
  sink_text "message" (World empty_sink_page []) = Some "" /\
  sink_text "message" (exec init (World empty_sink_page [])) = Some "Hello World".
Proof. split; reflexivity. Qed.

(** C9. The empty message is written like any other: on an existing sink
    [t], [displayMessage "" t] removes all the sink's children, so its text
    is the empty string. *)
Theorem displayMessage_empty_message (t : string) (w : world) (e : node) :
  sink t w = Some e ->
  sink_text t (exec (displayMessage "" t) w) = Some "" /\
  exists tag attrs old,
    e = Element tag attrs old /\
    sink t (exec (displayMessage "" t) w) = Some (Element tag attrs []).
Proof.
  intros Hs. split; [eapply sink_text_after_write; eassumption|].
  destruct (sink_Some _ _ _ Hs) as (p & tag & attrs & ch & _ & _ & ->).
  destruct (sink_after_write "" t w _ _ _ Hs) as [_ Hs'].
  now exists tag, attrs, ch.
Qed.

Lemma displayMessage_empty_message_witness :
  sink_text "message" (exec (displayMessage "" "message") (World old_text_page [])) =
  Some "".
Proof.
  exact (proj1 (displayMessage_empty_message "message" (World old_text_page []) _
                  eq_refl)).
Defined.

(** C10, as stated, fails on a page with nested sinks: writing to [message]
    changes the text of the sink [outer] around it, and the sink [inner]
    inside it is no longer in the document. *)
Lemma displayMessage_frame_fails_when_nested :
  sink_text "message" (World nested_page []) = Some "Old Text" /\
  "outer" <> "message" /\
  sink_text "outer" (World nested_page []) = Some "aOld Textb" /\
  sink_text "outer" (exec (displayMessage "Hi" "message") (World nested_page [])) =
    Some "aHib" /\
  "inner" <> "message" /\
  sink_text "inner" (World nested_page []) = Some "Text" /\
  sink_text "inner" (exec (displayMessage "Hi" "message") (World nested_page [])) =
    None.
Proof. repeat split; discriminate. Qed.

(** C10, amended. On the success path, a sink [t2] whose element lies
    neither inside the written element nor around it is found at the same
    place and is the same element, with the same content, after the
    call. *)
Theorem displayMessage_frame (m t t2 : string) (w : world) (p p2 : path) :
  find_forest t (document w) = Some p ->
  find_forest t2 (document w) = Some p2 ->
  apart p p2 = true ->
  find_forest t2 (document (exec (displayMessage m t) w)) = Some p2 /\
  sink t2 (exec (displayMessage m t) w) = sink t2 w /\
  sink_text t2 (exec (displayMessage m t) w) = sink_text t2 w.
Proof.
  intros Hp Hp2 Hap. unfold exec.
  rewrite (displayMessage_found m t w p Hp). cbn [snd].
  assert (Hf : find_forest t2 (forest_update p (set_textContent m) (document w)) =
               Some p2) by now apply find_forest_update_apart.
  assert (Hs : sink t2 (World (forest_update p (set_textContent m) (document w))
                              (console w)) = sink t2 w).
  { unfold sink. cbn [document]. rewrite Hf, Hp2.
    now apply forest_at_update_apart. }
  repeat split; [exact Hf | exact Hs |].
  unfold sink_text. now rewrite Hs.
Qed.

Lemma displayMessage_frame_witness :
  sink_text "title" (exec (displayMessage "Hi" "message") (World two_sinks_page [])) =
  sink_text "title" (World two_sinks_page []).
Proof.
  exact (proj2 (proj2 (displayMessage_frame "Hi" "message" "title"
                         (World two_sinks_page []) [0; 0; 1] [0; 0; 0]
                         eq_refl eq_refl eq_refl))).
Defined.

(** C8. The lifecycle is the two-state machine idle -> done.  On every page
    the host reaches from a freshly loaded script, [init] has run once if
    the content-loaded signal was fired and not at all otherwise; while
    idle the world is exactly as the page started; the registration is
    never removed or repeated; and every further host step moves the page
    as the two-state machine prescribes, so never from done back to idle. *)
Theorem lifecycle_idle_then_done (d : list node) (es : list host_event) (pg : page) :
  host_run es (boot d) = Some pg ->
  init_runs pg = (if existsb fired es then 1 else 0) /\
  phase pg = (if existsb fired es then Done else Idle) /\
  match phase pg with
  | Idle => page_world pg = World d []
  | Done => init_runs pg = 1
  end /\
  listeners pg = [("DOMContentLoaded", InitCallback)] /\
  forall e pg', host_fire e pg = Some pg' ->
                phase pg' = lifecycle_next (phase pg) e.
Proof.
  intros Hrun.
  destruct (lifecycle_inv_run d es _ _ (lifecycle_inv_boot d) Hrun) as [Hinv Hr].
  pose proof (lifecycle_inv_runs d pg Hinv) as Hn.
  assert (Hruns : init_runs pg = (if existsb fired es then 1 else 0)).
  { rewrite Hn, Hr. now destruct (existsb fired es). }
  assert (Hphase : phase pg = (if existsb fired es then Done else Idle)).
  { unfold phase. rewrite Hruns. now destruct (existsb fired es). }
  repeat split; try assumption.
  - rewrite Hphase. destruct (existsb fired es) eqn:Hf; [assumption|].
    destruct Hinv as [_ Hw]. rewrite Hr in Hw. exact Hw.
  - apply Hinv.
  - intros e pg' He.
    destruct (lifecycle_inv_fire d e pg pg' Hinv He) as [Hinv' Hr'].
    pose proof (lifecycle_inv_runs d pg' Hinv') as Hn'.
    unfold phase. rewrite Hn', Hn, Hr'.
    destruct e as [|type]; cbn [fired host_fire] in *.
    + destruct (readyState pg); [reflexivity | discriminate].
    + now destruct (readyState pg).
Qed.

Lemma lifecycle_idle_then_done_witness :
  exists pg,
    host_run [OtherEvent "click"; ContentLoaded; OtherEvent "load"]
             (boot old_text_page) = Some pg /\
    init_runs pg = 1 /\ phase pg = Done.
Proof.
  eexists. split; [reflexivity|].
  pose proof (lifecycle_idle_then_done old_text_page
                [OtherEvent "click"; ContentLoaded; OtherEvent "load"] _ eq_refl)
    as (Hn & Hp & _).
  split; [exact Hn | exact Hp].
Defined.

(** The registration itself does not ask for a single delivery: were the
    signal dispatched twice, [init] would run twice.  That it runs once is
    the host's contract. *)
Remark dispatch_twice_runs_twice :
  init_runs (dispatch "DOMContentLoaded"
               (dispatch "DOMContentLoaded" (boot old_text_page))) = 2.
Proof. reflexivity. Qed.

(** Evaluating the script changes neither the document nor the console. *)
Remark app_js_keeps_world (pg : page) : page_world (app_js pg) = page_world pg.
Proof.
  unfold app_js, addEventListener.
  now destruct (existsb _ (listeners pg)).
Qed.

(** ** Further facts about the document tree *)

Module DomMore.
Import Dom DomText DomFacts.

(** Induction over a tree whose children are kept in a list. *)
Lemma node_nested_ind (P : node -> Prop)
  (HT : forall d, P (Text d)) (HC : forall d, P (Comment d))
  (HE : forall tag attrs ch, Forall P ch -> P (Element tag attrs ch)) :
  forall n, P n.
Proof.
  fix IH 1. intros [d|d|tag attrs ch]; [apply HT | apply HC |].
  apply HE. induction ch as [|c r IHr]; constructor; [apply IH | exact IHr].
Qed.

Lemma element_id_nonempty attrs v : element_id attrs = Some v -> v <> "".
Proof.
  unfold element_id. destruct (getAttribute "id" attrs) as [u|]; [|discriminate].
  destruct (String.eqb u "") eqn:Hu; [discriminate|].
  intros [= <-]. now apply String.eqb_neq.
Qed.

Lemma has_id_empty n : has_id "" n = false.
Proof.
  destruct n as [d|d|tag attrs ch]; try reflexivity.
  cbn [has_id]. destruct (element_id attrs) as [v|] eqn:Hv; [|reflexivity].
  apply String.eqb_neq. eapply element_id_nonempty; eassumption.
Qed.

(** No element is found under the empty identifier. *)
Lemma find_node_empty n : find_node "" n = None.
Proof.
  induction n as [d|d|tag attrs ch IH] using node_nested_ind; try reflexivity.
  rewrite find_node_element, has_id_empty.
  apply find_forest_None. intros j c Hc.
  rewrite Forall_forall in IH. apply IH.
  eapply list_elem_of_lookup_2; eassumption.
Qed.

Lemma find_forest_empty (l : list node) : find_forest "" l = None.
Proof. apply find_forest_None. intros j c _. apply find_node_empty. Qed.

(** The search stops at the first match on the way down: no proper
    ancestor of the element it returns has the ID. *)
Lemma find_node_first t p : forall q n e,
  find_node t n = Some p -> is_prefix q p = true -> q <> p ->
  node_at q n = Some e -> has_id t e = false.
Proof.
  induction p as [|i p IH]; intros q n e Hn Hq Hne He.
  - destruct q; [congruence | discriminate].
  - destruct n as [d|d|tag attrs ch]; try discriminate.
    rewrite find_node_element in Hn.
    destruct (has_id t (Element tag attrs ch)) eqn:Hid; [discriminate|].
    destruct q as [|j q].
    + cbn in He. now injection He as <-.
    + cbn [is_prefix] in Hq. apply andb_true_iff in Hq. destruct Hq as [Hji Hq].
      apply Nat.eqb_eq in Hji. subst j.
      apply find_forest_Some in Hn. destruct Hn as (c & Hc & Hp & _).
      cbn [node_at children] in He. rewrite Hc in He.
      apply (IH q c e Hp Hq); [congruence | assumption].
Qed.

Lemma find_forest_first t p q (l : list node) e :
  find_forest t l = Some p -> is_prefix q p = true -> q <> p ->
  forest_at q l = Some e -> has_id t e = false.
Proof.
  intros Hl Hq Hne He.
  destruct q as [|j q]; [discriminate|].
  destruct p as [|i p]; [discriminate|].
  cbn [is_prefix] in Hq. apply andb_true_iff in Hq. destruct Hq as [Hji Hq].
  apply Nat.eqb_eq in Hji. subst j.
  apply find_forest_Some in Hl. destruct Hl as (c & Hc & Hp & _).
  cbn [forest_at] in He. rewrite Hc in He.
  apply (find_node_first t p q c e Hp Hq); [congruence | assumption].
Qed.

Lemma find_forest_update_None t m p (l : list node) :
  find_forest t l = None ->
  find_forest t (forest_update p (set_textContent m) l) = None.
Proof.
  destruct p as [|i p]; [trivial|]. cbn [forest_update].
  rewrite !find_forest_None. intros Hl j c Hc.
  destruct (Nat.eq_dec i j) as [->|Hne].
  - rewrite list_lookup_alter_eq in Hc.
    destruct (l !! j) as [c0|] eqn:Hc0; [|discriminate].
    cbn in Hc. injection Hc as <-. apply find_node_update_None. now apply (Hl j).
  - rewrite list_lookup_alter_ne in Hc by assumption. now apply (Hl j).
Qed.

(** Every element of the written tree was an element of the tree before,
    at the same place and with the same tag and attributes. *)
Lemma node_at_update_element m p : forall q n tag attrs ch,
  node_at q (node_update p (set_textContent m) n) = Some (Element tag attrs ch) ->
  exists ch0, node_at q n = Some (Element tag attrs ch0).
Proof.
  induction p as [|i p IH]; intros q n tag attrs ch H.
  - cbn [node_update] in H. destruct n as [d|d|tag0 attrs0 ch0]; cbn in H.
    + destruct q as [|j q]; [discriminate|]. cbn in H. discriminate.
    + destruct q as [|j q]; [discriminate|]. cbn in H. discriminate.
    + destruct q as [|j q].
      * cbn in H. injection H as -> -> _. now exists ch0.
      * cbn [node_at children] in H. unfold text_nodes in H.
        destruct (String.eqb m ""); [discriminate|].
        destruct j as [|j]; [|discriminate]. cbn in H.
        destruct q as [|k q]; [discriminate|]. cbn in H. discriminate.
  - destruct n as [d|d|tag0 attrs0 ch0]; cbn [node_update] in H;
      try (now exists ch).
    destruct q as [|j q].
    + cbn in H. injection H as -> -> _. now exists ch0.
    + cbn [node_at children] in *.
      destruct (Nat.eq_dec i j) as [->|Hne].
      * rewrite list_lookup_alter_eq in H.
        destruct (ch0 !! j) as [c|]; [|discriminate]. cbn in H.
        eapply IH; eassumption.
      * rewrite list_lookup_alter_ne in H by assumption. now exists ch.
Qed.

Lemma forest_at_update_element m p q (l : list node) tag attrs ch :
  forest_at q (forest_update p (set_textContent m) l) = Some (Element tag attrs ch) ->
  exists ch0, forest_at q l = Some (Element tag attrs ch0).
Proof.
  destruct p as [|i p]; [intros H; now exists ch|].
  destruct q as [|j q]; [discriminate|]. cbn [forest_at forest_update].
  destruct (Nat.eq_dec i j) as [->|Hne].
  - rewrite list_lookup_alter_eq.
    destruct (l !! j) as [c|]; [|discriminate]. cbn.
    apply node_at_update_element.
  - rewrite list_lookup_alter_ne by assumption. intros H. now exists ch.
Qed.









End DomMore.

(** ** Further facts about the script and the host *)

Module JsMore.
Import Dom DomText Js Host DomFacts DomMore JsFacts HostFacts.

Lemma length_append (a b : string) :
  String.length (String.append a b) = String.length a + String.length b.
Proof. induction a as [|x a IH]; cbn; [reflexivity | now rewrite IH]. Qed.

Lemma append_cancel_l (p a b : string) :
  String.append p a = String.append p b -> a = b.
Proof. induction p as [|x p IH]; cbn; [trivial|]. intros [= H]. now apply IH. Qed.

Lemma append_cancel_r (c : string) : forall a b,
  String.append a c = String.append b c -> a = b.
Proof.
  induction a as [|x a IH]; intros b H.
  - destruct b as [|y b]; [reflexivity|].
    apply (f_equal String.length) in H. cbn in H. rewrite length_append in H. lia.
  - destruct b as [|y b].
    + apply (f_equal String.length) in H. cbn in H. rewrite length_append in H. lia.
    + cbn in H. injection H as -> H. f_equal. now apply IH.
Qed.

Lemma not_found_text_cancel a b : not_found_text a = not_found_text b -> a = b.
Proof.
  unfold not_found_text. intros H.
  apply append_cancel_l in H. now apply append_cancel_r in H.
Qed.

Lemma is_prefix_refl p : is_prefix p p = true.
Proof. induction p as [|i p IH]; cbn; [reflexivity|]. now rewrite Nat.eqb_refl. Qed.

Lemma apart_sym p q : apart p q = apart q p.
Proof. unfold apart. apply andb_comm. Qed.

(** Updates through references that lie apart can be made in either
    order. *)
Lemma node_update_swap f g p : forall q n,
  apart p q = true ->
  node_update p f (node_update q g n) = node_update q g (node_update p f n).
Proof.
  induction p as [|i p IH]; intros q n Hpq.
  - now rewrite apart_nil_l in Hpq.
  - destruct q as [|j q]; [now rewrite apart_nil_r in Hpq|].
    destruct n as [d|d|tag attrs ch]; try reflexivity.
    cbn [node_update]. f_equal.
    destruct (apart_cons _ _ _ _ Hpq) as [Hne|[-> Hap]].
    + now apply list_alter_alter_ne.
    + rewrite !list_alter_alter_eq. apply list_alter_ext; [|reflexivity].
      intros x _. cbn. now apply IH.
Qed.

Lemma forest_update_swap f g p q (l : list node) :
  apart p q = true ->
  forest_update p f (forest_update q g l) = forest_update q g (forest_update p f l).
Proof.
  destruct p as [|i p]; [now rewrite apart_nil_l|].
  destruct q as [|j q]; [now rewrite apart_nil_r|]. intros Hpq.
  cbn [forest_update].
  destruct (apart_cons _ _ _ _ Hpq) as [Hne|[-> Hap]].
  - now apply list_alter_alter_ne.
  - rewrite !list_alter_alter_eq. apply list_alter_ext; [|reflexivity].
    intros x _. cbn. now apply node_update_swap.
Qed.

Lemma exec_init_found w p :
  find_forest "message" (document w) = Some p ->
  exec init w =
  World (forest_update p (set_textContent "Hello World") (document w))
        (console w ++ [Entry LogLine init_text]).
Proof.
  intros Hp. rewrite exec_init. unfold exec.
  now rewrite (displayMessage_found _ _ _ _ Hp).
Qed.

Lemma exec_init_absent w :
  find_forest "message" (document w) = None ->
  exec init w =
  World (document w)
        (console w ++ [Entry ErrorLine (not_found_text "message");
                       Entry LogLine init_text]).
Proof.
  intros Hp. rewrite exec_init. unfold exec.
  rewrite (displayMessage_absent _ _ _ Hp). cbn. now rewrite <- app_assoc.
Qed.

(** The world of a page the host has reached: as it started while the
    document is loading, and [init] applied once to that start
    afterwards. *)
Lemma page_world_fire d e pg pg' :
  listeners pg = [("DOMContentLoaded", InitCallback)] ->
  page_world pg =
    match readyState pg with
    | Loading => World d []
    | Loaded => exec init (World d [])
    end ->
  host_fire e pg = Some pg' ->
  listeners pg' = [("DOMContentLoaded", InitCallback)] /\
  page_world pg' =
    match readyState pg' with
    | Loading => World d []
    | Loaded => exec init (World d [])
    end /\
  readyState pg' = (if fired e then Loaded else readyState pg).
Proof.
  intros Hl Hw He. destruct pg as [w ls r]. cbn in Hl, Hw. subst ls.
  destruct e as [|type]; cbn [host_fire readyState fired] in *.
  - destruct r; [|discriminate]. injection He as <-.
    unfold dispatch. cbn [listeners page_world readyState].
    rewrite run_registered_on_signal. subst w. repeat split.
  - destruct (String.eqb type "DOMContentLoaded") eqn:Hty; [discriminate|].
    injection He as <-. unfold dispatch. cbn [listeners page_world readyState].
    rewrite (run_registered_on_other _ _ Hty). repeat split. exact Hw.
Qed.

Lemma page_world_run d es : forall pg pg',
  listeners pg = [("DOMContentLoaded", InitCallback)] ->
  page_world pg =
    match readyState pg with
    | Loading => World d []
    | Loaded => exec init (World d [])
    end ->
  host_run es pg = Some pg' ->
  page_world pg' =
    match readyState pg' with
    | Loading => World d []
    | Loaded => exec init (World d [])
    end /\
  readyState pg' = (if existsb fired es then Loaded else readyState pg).
Proof.
  induction es as [|e es IH]; intros pg pg' Hl Hw Hrun.
  - cbn in *. injection Hrun as <-. now split.
  - cbn [host_run existsb] in *.
    destruct (host_fire e pg) as [pg1|] eqn:He; [|discriminate].
    destruct (page_world_fire d e pg pg1 Hl Hw He) as (Hl1 & Hw1 & Hr1).
    destruct (IH pg1 pg' Hl1 Hw1 Hrun) as [Hw' Hr'].
    split; [assumption|]. rewrite Hr', Hr1.
    destruct (fired e); cbn; [now destruct (existsb fired es) | reflexivity].
Qed.

Lemma page_world_boot d es pg :
  host_run es (boot d) = Some pg ->
  page_world pg =
    (if existsb fired es then exec init (World d []) else World d []).
Proof.
  intros Hrun.
  destruct (page_world_run d es (boot d) pg eq_refl eq_refl Hrun) as [Hw Hr].
  rewrite Hw, Hr. now destruct (existsb fired es).
Qed.

End JsMore.

(** ** Further properties of the renderer *)

Import DomText DomMore JsMore.

(** X1. The empty identifier never names a sink, whatever the document
    holds, even an element whose [id] attribute is empty: a call with it
    always takes the not-found path, leaving the document as it was and
    writing the error line with the empty name. *)
Theorem displayMessage_empty_id (m : string) (w : world) :
  sink "" w = None /\
  document (exec (displayMessage m "") w) = document w /\
  console (exec (displayMessage m "") w) =
    console w ++ [Entry ErrorLine "Element with ID '' not found"].
Proof.
  pose proof (find_forest_empty (document w)) as Hf.
  split; [now apply sink_None|].
  unfold exec. rewrite (displayMessage_absent m "" w Hf). now split.
Qed.

Lemma displayMessage_empty_id_example :
  exec (displayMessage "Hi" "") (World empty_id_page []) =
  World empty_id_page [Entry ErrorLine "Element with ID '' not found"].
Proof. reflexivity. Qed.

(** X2. When several elements carry the identifier, only the first in tree
    order is written: any other element with that identifier that does
    not lie inside the first is read back unchanged after the call. *)
Theorem displayMessage_writes_first_only
  (m t : string) (w : world) (p q : path) (e : node) :
  find_forest t (document w) = Some p ->
  forest_at q (document w) = Some e ->
  has_id t e = true ->
  is_prefix p q = false ->
  forest_at q (document (exec (displayMessage m t) w)) = Some e.
Proof.
  intros Hp He Hid Hpq.
  assert (Hne : q <> p).
  { intros ->. rewrite is_prefix_refl in Hpq. discriminate. }
  assert (Hqp : is_prefix q p = false).
  { destruct (is_prefix q p) eqn:Hqp; [|reflexivity].
    pose proof (find_forest_first t p q _ e Hp Hqp Hne He). congruence. }
  unfold exec. rewrite (displayMessage_found m t w p Hp). cbn [snd document].
  rewrite forest_at_update_apart; [assumption|].
  unfold apart. now rewrite Hpq, Hqp.
Qed.

Lemma displayMessage_writes_first_only_witness :
  forest_at [0; 0; 1]
    (document (exec (displayMessage "Hi" "message") (World duplicate_page []))) =
  Some (Element "div" [("id", "message")] [Text "second"]).
Proof.
  exact (displayMessage_writes_first_only "Hi" "message" (World duplicate_page [])
           [0; 0; 0] [0; 0; 1] _ eq_refl eq_refl eq_refl eq_refl).
Defined.

(** X3. The message is written as text and never read as markup: every
    element of the document after a call was an element of the document
    before it, at the same place and with the same tag and attributes. *)
Theorem displayMessage_creates_no_element
  (m t : string) (w : world) (q : path) (tag : string)
  (attrs : list (string * string)) (ch : list node) :
  forest_at q (document (exec (displayMessage m t) w)) = Some (Element tag attrs ch) ->
  exists ch0, forest_at q (document w) = Some (Element tag attrs ch0).
Proof.
  unfold exec. destruct (find_forest t (document w)) as [p|] eqn:Hp.
  - rewrite (displayMessage_found m t w p Hp). cbn [snd document].
    apply forest_at_update_element.
  - rewrite (displayMessage_absent m t w Hp). cbn [snd document].
    intros H. now exists ch.
Qed.

Lemma displayMessage_creates_no_element_witness :
  exists ch0,
    forest_at [0; 0; 0] (document (World old_text_page [])) =
    Some (Element "div" [("id", "message")] ch0).
Proof.
  exact (displayMessage_creates_no_element "<b id='x'>bold</b>" "message"
           (World old_text_page []) [0; 0; 0] "div" [("id", "message")]
           [Text "<b id='x'>bold</b>"] eq_refl).
Defined.

(** X4. A call never makes an identifier resolvable: an identifier that
    names no sink before a call, to whatever target and with whatever
    message, names none after it. *)
Theorem displayMessage_creates_no_sink (m t t2 : string) (w : world) :
  sink t2 w = None -> sink t2 (exec (displayMessage m t) w) = None.
Proof.
  intros Hs. apply sink_None in Hs. apply sink_None. unfold exec.
  destruct (find_forest t (document w)) as [p|] eqn:Hp.
  - rewrite (displayMessage_found m t w p Hp). cbn [snd document].
    now apply find_forest_update_None.
  - now rewrite (displayMessage_absent m t w Hp).
Qed.

Lemma displayMessage_creates_no_sink_witness :
  sink "x" (exec (displayMessage "<b id='x'>bold</b>" "message")
                 (World old_text_page [])) = None.
Proof.
  exact (displayMessage_creates_no_sink "<b id='x'>bold</b>" "message" "x"
           (World old_text_page []) eq_refl).
Defined.



(** X6. Running [init] a second time changes nothing in the document the
    first run left, and writes to the console the same lines the first run
    wrote, once more. *)
Theorem init_twice (w : world) :
  document (exec init (exec init w)) = document (exec init w) /\
  exists new,
    console (exec init w) = console w ++ new /\
    console (exec init (exec init w)) = console w ++ new ++ new.
Proof.
  destruct (find_forest "message" (document w)) as [p|] eqn:Hp.
  - pose proof (find_forest_update_same "message" _
                  (set_textContent_keeps_shell "Hello World") p _ Hp) as Hp'.
    rewrite (exec_init_found w p Hp).
    rewrite (exec_init_found (World _ _) p Hp'). cbn [document console].
    split.
    + rewrite forest_update_twice. apply forest_update_ext.
      intros n. apply set_textContent_twice.
    + exists [Entry LogLine init_text]. split; [reflexivity|].
      now rewrite <- app_assoc.
  - rewrite (exec_init_absent w Hp).
    rewrite (exec_init_absent (World _ _) Hp). cbn [document console].
    split; [reflexivity|].
    exists [Entry ErrorLine (not_found_text "message"); Entry LogLine init_text].
    split; [reflexivity|]. now rewrite <- app_assoc.
Qed.

(** X7. The listener reacts to the load signal and to nothing else: on
    every page the host reaches from a freshly loaded script, the world is
    the starting world if the signal has not been fired, and [init]
    applied once to the starting world if it has, whatever other events
    were fired before or after. *)
Theorem page_world_after_events (d : list node) (es : list host_event) (pg : page) :
  host_run es (boot d) = Some pg ->
  page_world pg =
    (if existsb fired es then exec init (World d []) else World d []).
Proof.
  intros Hrun.
  destruct (page_world_run d es (boot d) pg eq_refl eq_refl Hrun) as [Hw Hr].
  rewrite Hw, Hr. now destruct (existsb fired es).
Qed.

Lemma page_world_after_events_witness :
  exists pg,
    host_run [OtherEvent "click"; ContentLoaded; OtherEvent "DOMContentloaded"]
             (boot old_text_page) = Some pg /\
    page_world pg = exec init (World old_text_page []).
Proof.
  eexists. split; [reflexivity|].
  exact (page_world_after_events old_text_page
           [OtherEvent "click"; ContentLoaded; OtherEvent "DOMContentloaded"]
           _ eq_refl).
Defined.

(** X8. From page load to what the user sees: once the host has fired the
    load signal, a page that had an element with the ID [message] shows
    "Hello World" in it and its console holds the confirmation line alone;
    a page that had none has its document as it started and its console
    holds the error followed by the confirmation. *)
Theorem page_after_load (d : list node) (es : list host_event) (pg : page) :
  host_run es (boot d) = Some pg ->
  existsb fired es = true ->
  match sink "message" (World d []) with
  | Some _ =>
      sink_text "message" (page_world pg) = Some "Hello World" /\
      console (page_world pg) = [Entry LogLine init_text]
  | None =>
      document (page_world pg) = d /\
      console (page_world pg) =
        [Entry ErrorLine "Element with ID 'message' not found";
         Entry LogLine init_text]
  end.
Proof.
  intros Hrun Hfired. rewrite (page_world_boot d es pg Hrun), Hfired.
  destruct (sink "message" (World d [])) as [e|] eqn:Hs.
  - destruct (sink_Some _ _ _ Hs) as (p & tag & attrs & ch & Hp & _ & ->).
    split.
    + rewrite exec_init. unfold sink_text, console_log.
      rewrite sink_console_write.
      destruct (sink_after_write "Hello World" "message" _ _ _ _ Hs) as [_ ->].
      reflexivity.
    + now rewrite (exec_init_found _ p Hp).
  - apply sink_None in Hs. now rewrite (exec_init_absent _ Hs).
Qed.

Lemma page_after_load_witness :
  match sink "message" (World old_text_page []) with
  | Some _ =>
      sink_text "message"
        (exec init (World old_text_page [])) = Some "Hello World" /\
      console (exec init (World old_text_page [])) = [Entry LogLine init_text]
  | None => False
  end.
Proof.
  exact (page_after_load old_text_page [OtherEvent "click"; ContentLoaded]
           (Page (exec init (World old_text_page []))
                 [("DOMContentLoaded", InitCallback)] Loaded)
           eq_refl eq_refl).
Defined.

(** X9. The error line tells identifiers apart: two calls that miss their
    targets write the same line only when they were given the same
    identifier. *)
Theorem displayMessage_error_names_target (m m' a b : string) (w : world) :
  sink a w = None -> sink b w = None ->
  console (exec (displayMessage m a) w) = console (exec (displayMessage m' b) w) ->
  a = b.
Proof.
  intros Ha Hb. apply sink_None in Ha, Hb. unfold exec.
  rewrite (displayMessage_absent m a w Ha), (displayMessage_absent m' b w Hb).
  cbn [snd console]. intros H. apply app_inv_head in H.
  assert (Ht : not_found_text a = not_found_text b) by congruence.
  now apply not_found_text_cancel.
Qed.

Lemma displayMessage_error_names_target_witness : "status" = "status".
Proof.
  exact (displayMessage_error_names_target "Hi" "Ho" "status" "status"
           (World old_text_page []) eq_refl eq_refl eq_refl).
Defined.

(** X10. Writes to two sinks that lie apart commute: the world after
    writing to one and then the other does not depend on the order. *)
Theorem displayMessage_commutes
  (m m2 t t2 : string) (w : world) (p p2 : path) :
  find_forest t (document w) = Some p ->
  find_forest t2 (document w) = Some p2 ->
  apart p p2 = true ->
  exec (displayMessage m2 t2) (exec (displayMessage m t) w) =
  exec (displayMessage m t) (exec (displayMessage m2 t2) w).
Proof.
  intros Hp Hp2 Hap.
  pose proof (find_forest_update_apart t2 m p p2 _ Hap Hp2) as H2.
  rewrite apart_sym in Hap.
  pose proof (find_forest_update_apart t m2 p2 p _ Hap Hp) as H1.
  unfold exec.
  rewrite (displayMessage_found m t w p Hp), (displayMessage_found m2 t2 w p2 Hp2).
  cbn [snd].
  rewrite (displayMessage_found m2 t2 (World _ _) p2 H2).
  rewrite (displayMessage_found m t (World _ _) p H1).
  cbn [snd document console]. f_equal.
  now apply forest_update_swap.
Qed.

Lemma displayMessage_commutes_witness :
  exec (displayMessage "T" "title")
       (exec (displayMessage "M" "message") (World two_sinks_page [])) =
  exec (displayMessage "M" "message")
       (exec (displayMessage "T" "title") (World two_sinks_page [])).
Proof.
  exact (displayMessage_commutes "M" "T" "message" "title" (World two_sinks_page [])
           [0; 0; 1] [0; 0; 0] eq_refl eq_refl eq_refl).
Defined.
